(** * Pet CRUD service: a shallow embedding of [server/app.py]

    The five Flask route handlers of [server/app.py] are embedded as
    functions over an explicit database state.  Request bodies are
    parsed JSON values (what [request.get_json()] hands to the handler),
    Python dictionaries are finite maps with string keys, and an
    uncaught Python exception is an explicit outcome of a handler. *)

From Stdlib Require Import ZArith.
From stdpp Require Import gmap strings list pretty.

Local Open Scope string_scope.
Local Open Scope Z_scope.

(** ** JSON values, as produced by [request.get_json()] *)

(** A Python float, through what the handlers and the storage observe
    of it: whether it is zero (and so falsy), whether it is NaN (which
    the parser accepts, and which a column stores as NULL), and the
    text a string column holds for it ("1.5", "Inf", ...). *)
Record pyfloat : Type := mkFloat {
  float_is_zero : bool;
  float_is_nan : bool;
  float_text : string;
}.

(** [JNull] is Python's [None], [JInt] an unbounded Python int, [JArr]
    a Python list and [JObj] a Python dict. *)
#[local] Set Warnings "-register-all".
Inductive json : Type :=
  | JNull
  | JBool (b : bool)
  | JInt (n : Z)
  | JFloat (f : pyfloat)
  | JStr (s : string)
  | JArr (l : list json)
  | JObj (o : gmap string json).

(** Python truthiness ([bool(v)]), the test behind [not v] and [if v:]. *)
Definition truthy (v : json) : bool :=
  match v with
  | JNull => false
  | JBool b => b
  | JInt n => negb (n =? 0)
  | JFloat f => negb (float_is_zero f)
  | JStr s => negb (Nat.eqb (String.length s) 0)
  | JArr l => negb (Nat.eqb (length l) 0)
  | JObj o => negb (Nat.eqb (size o) 0)
  end.

(** Uncaught exceptions a handler can end in.  The first three come
    from the handler's own expressions, the others from the storage
    layer: [OverflowError] for a Python int that does not fit a 64-bit
    integer, [BindingError] for a value of a type that cannot be bound
    as a statement parameter (sqlite3's "Error binding parameter"),
    [OperationalError] for an insert when no id is left. *)
Inductive exn : Type :=
  | AttributeError
  | TypeError
  | KeyError
  | OverflowError
  | BindingError
  | OperationalError.

Definition storage_error (e : exn) : bool :=
  match e with
  | OverflowError | BindingError | OperationalError => true
  | _ => false
  end.

(** A small error monad for the Python expressions that can raise. *)
Definition py (A : Type) : Type := exn + A.
Definition py_raise {A} (e : exn) : py A := inl e.

#[global] Instance py_ret : MRet py := fun A a => inr a.
#[global] Instance py_bind : MBind py := fun A B k c =>
  match c with
  | inl e => inl e
  | inr a => k a
  end.

(** [sub in s] on Python strings: substring test. *)
Fixpoint str_contains (sub s : string) : bool :=
  Stdlib.Strings.String.prefix sub s ||
  match s with
  | EmptyString => false
  | String _ t => str_contains sub t
  end.

(** [key == v] for a Python string [key] and a JSON value [v]. *)
Definition json_eq_str (key : string) (v : json) : bool :=
  match v with
  | JStr s => bool_decide (s = key)
  | _ => false
  end.

(** [data.get(key)]: only dicts have the method; a missing key gives
    [None]. *)
Definition py_get (key : string) (data : json) : py json :=
  match data with
  | JObj o => mret (default JNull (o !! key))
  | _ => py_raise AttributeError
  end.

(** [key in data]. *)
Definition py_in (key : string) (data : json) : py bool :=
  match data with
  | JObj o => mret (bool_decide (is_Some (o !! key)))
  | JArr l => mret (existsb (json_eq_str key) l)
  | JStr s => mret (str_contains key s)
  | _ => py_raise TypeError
  end.

(** [data[key]] with a string key. *)
Definition py_getitem (key : string) (data : json) : py json :=
  match data with
  | JObj o =>
      match o !! key with
      | Some v => mret v
      | None => py_raise KeyError
      end
  | _ => py_raise TypeError
  end.

(** ** The entity and its table *)

(** A [Pet] object.  [id] is [None] until the object is persisted; the
    attributes of an object in memory hold whatever was assigned, those
    of a row hold what the columns store. *)
Record Pet : Type := mkPet {
  id : option Z;
  name : json;
  species : json;
}.

(** Modelled from the spec: [models.py] (the [Pet] model class and the
    [db] handle) is not part of the sources at hand.  Following the
    spec, the persisted state is one table of Pet rows with schema
    (id: auto-increment primary key, name: string, species: string) in
    the SQLite file of [app.config], listed in insertion order; the
    entity layer does no validation of its own.  [next_id] is the
    auto-increment counter. *)
Record database : Type := mkDb {
  rows : list Pet;
  next_id : Z;
}.

(** The table right after [db.create_all()]. *)
Definition empty_db : database := {| rows := []; next_id := 1 |}.

(** Integers are bound to statements, and ids stored, as signed 64-bit
    integers. *)
Definition in_int64 (n : Z) : bool := (- 2 ^ 63 <=? n) && (n <? 2 ^ 63).

(** Binding a Python value to a string column: [None] is NULL and a
    string is kept; an int (a bool is an int) and a float are bound as
    numbers, which the column stores as their text, NaN as NULL; an int
    outside the 64-bit range, a list or a dict cannot be bound.  What
    comes back is NULL or a string. *)
Definition to_column (v : json) : py json :=
  match v with
  | JNull => mret JNull
  | JBool b => mret (JStr (if b then "1" else "0"))
  | JInt n => if in_int64 n then mret (JStr (pretty n)) else py_raise OverflowError
  | JFloat f => mret (if float_is_nan f then JNull else JStr (float_text f))
  | JStr s => mret (JStr s)
  | JArr _ | JObj _ => py_raise BindingError
  end.

(** [db.session.get(Pet, pet_id)]: primary-key look-up.  The key is
    bound as a 64-bit integer: outside that range the call raises, and
    no row is found. *)
Definition has_id (pet_id : Z) (p : Pet) : bool :=
  bool_decide (id p = Some pet_id).

Definition session_get (pet_id : Z) (db : database) : option Pet :=
  if in_int64 pet_id then find (has_id pet_id) (rows db) else None.

Definition db_session_get (pet_id : Z) (db : database) : py (option Pet) :=
  if in_int64 pet_id then mret (session_get pet_id db)
  else py_raise OverflowError.

(** Binding the two attributes of an object to a statement, [name]
    before [species]; the result carries what the columns then hold. *)
Definition bind_columns (pet : Pet) : py Pet :=
  n ← to_column (name pet);
  s ← to_column (species pet);
  mret {| id := id pet; name := n; species := s |}.

(** [db.session.add(pet); db.session.commit()]: the attribute values
    are bound to the INSERT, the storage layer assigns the next id and
    appends the row; afterwards the object holds what the row holds.
    Nothing is stored when the statement fails. *)
Definition session_add_commit (pet : Pet) (db : database)
    : py (Pet * database) :=
  p ← bind_columns pet;
  if in_int64 (next_id db) then
    let pet' := {| id := Some (next_id db); name := name p; species := species p |} in
    mret (pet', {| rows := rows db ++ [pet']; next_id := next_id db + 1 |})
  else py_raise OperationalError.

(** [db.session.commit()] after attribute assignments on a persisted
    object: the attribute values are bound to the UPDATE of the row
    with the object's primary key (what was loaded from the row and not
    assigned is a column value, which binding keeps); afterwards the
    object holds what the row holds.  The row stays as it was when the
    statement fails. *)
Definition update_row (pet : Pet) (db : database) : database :=
  {| rows := map (fun q => if bool_decide (id q = id pet) then pet else q) (rows db);
     next_id := next_id db |}.

Definition session_commit (pet : Pet) (db : database) : py (Pet * database) :=
  p ← bind_columns pet;
  mret (p, update_row p db).

(** [db.session.delete(pet); db.session.commit()]. *)
Definition session_delete_commit (pet : Pet) (db : database) : database :=
  {| rows := filter (fun q => id q ≠ id pet) (rows db);
     next_id := next_id db |}.

(** [Pet.query.all()] and [Pet.query.filter_by(species=s).all()]. *)
Definition query_all (db : database) : list Pet := rows db.

Definition query_filter_by_species (s : string) (db : database) : list Pet :=
  filter (fun p => json_eq_str s (species p)) (rows db).

(** ** Responses *)

(** What a handler ends in: a response (body, status) or an uncaught
    exception. *)
Inductive outcome : Type :=
  | Response (body : json) (status : Z)
  | Raise (e : exn).

(** [jsonify({'id': pet.id, 'name': pet.name, 'species': pet.species})]. *)
Definition id_json (i : option Z) : json :=
  match i with
  | Some n => JInt n
  | None => JNull
  end.

Definition pet_json (pet : Pet) : json :=
  JObj (<["id" := id_json (id pet)]>
        (<["name" := name pet]>
         (<["species" := species pet]> ∅))).

Definition error_json (msg : string) : json := JObj (<["error" := JStr msg]> ∅).
Definition message_json (msg : string) : json := JObj (<["message" := JStr msg]> ∅).

Definition required_error : json := error_json "Name and species are required".
Definition not_found_error : json := error_json "Pet not found".
Definition deleted_message : json := message_json "Pet deleted successfully".

(** ** The route handlers *)

(** [not data or not data.get('name') or not data.get('species')],
    evaluated left to right with short-circuiting. *)
Definition create_invalid (data : json) : py bool :=
  if negb (truthy data) then mret true
  else
    n ← py_get "name" data;
    if negb (truthy n) then mret true
    else
      s ← py_get "species" data;
      mret (negb (truthy s)).

(** [POST /pets] *)
Definition create_pet (data : json) (db : database) : outcome * database :=
  match create_invalid data with
  | inl e => (Raise e, db)
  | inr true => (Response required_error 400, db)
  | inr false =>
      match (n ← py_getitem "name" data;
             s ← py_getitem "species" data;
             session_add_commit {| id := None; name := n; species := s |} db) with
      | inl e => (Raise e, db)
      | inr (pet', db') => (Response (pet_json pet') 201, db')
      end
  end.

(** [GET /pets], with [species_filter = request.args.get('species')]. *)
Definition get_pets (species_filter : option string) (db : database) : outcome :=
  let pets :=
    match species_filter with
    | Some s => if truthy (JStr s) then query_filter_by_species s db else query_all db
    | None => query_all db
    end in
  Response (JArr (map pet_json pets)) 200.

(** [GET /pets/<int:pet_id>] *)
Definition get_pet (pet_id : Z) (db : database) : outcome :=
  match db_session_get pet_id db with
  | inl e => Raise e
  | inr None => Response not_found_error 404
  | inr (Some pet) => Response (pet_json pet) 200
  end.

(** The two conditional assignments of [update_pet]. *)
Definition assign_if_present (key : string) (data : json)
    (set : json → Pet → Pet) (pet : Pet) : py Pet :=
  present ← py_in key data;
  if (present : bool) then v ← py_getitem key data; mret (set v pet)
  else mret pet.

Definition set_name (v : json) (pet : Pet) : Pet :=
  {| id := id pet; name := v; species := species pet |}.
Definition set_species (v : json) (pet : Pet) : Pet :=
  {| id := id pet; name := name pet; species := v |}.

Definition update_fields (data : json) (pet : Pet) : py Pet :=
  pet1 ← assign_if_present "name" data set_name pet;
  assign_if_present "species" data set_species pet1.

(** [PUT/PATCH /pets/<int:pet_id>] *)
Definition update_pet (pet_id : Z) (data : json) (db : database)
    : outcome * database :=
  match db_session_get pet_id db with
  | inl e => (Raise e, db)
  | inr None => (Response not_found_error 404, db)
  | inr (Some pet) =>
      match (pet2 ← update_fields data pet; session_commit pet2 db) with
      | inl e => (Raise e, db)
      | inr (pet', db') => (Response (pet_json pet') 200, db')
      end
  end.

(** [DELETE /pets/<int:pet_id>] *)
Definition delete_pet (pet_id : Z) (db : database) : outcome * database :=
  match db_session_get pet_id db with
  | inl e => (Raise e, db)
  | inr None => (Response not_found_error 404, db)
  | inr (Some pet) => (Response deleted_message 200, session_delete_commit pet db)
  end.

(** ** Requests and runs of the service *)

Inductive request : Type :=
  | ReqCreate (data : json)
  | ReqList (species_filter : option string)
  | ReqGet (pet_id : Z)
  | ReqUpdate (pet_id : Z) (data : json)
  | ReqDelete (pet_id : Z).

Definition handle (r : request) (db : database) : outcome * database :=
  match r with
  | ReqCreate data => create_pet data db
  | ReqList f => (get_pets f db, db)
  | ReqGet i => (get_pet i db, db)
  | ReqUpdate i data => update_pet i data db
  | ReqDelete i => delete_pet i db
  end.

(** Serving a sequence of requests, one at a time: the responses in
    order and the final table. *)
Fixpoint serve (rs : list request) (db : database) : list outcome * database :=
  match rs with
  | [] => ([], db)
  | r :: rs' =>
      let '(out, db1) := handle r db in
      let '(outs, db2) := serve rs' db1 in
      (out :: outs, db2)
  end.

(** The states the service can be in. *)
Inductive reachable : database → Prop :=
  | reachable_init : reachable empty_db
  | reachable_step r db : reachable db → reachable (handle r db).2.

(** ** Notions used in the statements *)

(** Reading one field of a JSON object body. *)
Definition body_field (key : string) (body : json) : option json :=
  match body with
  | JObj m => m !! key
  | _ => None
  end.



(** The object [update_pet] commits for a dict body [o]: each field
    takes the body's value when the key is present and keeps its own
    otherwise. *)
Definition patched (o : gmap string json) (pet : Pet) : Pet :=
  {| id := id pet;
     name := default (name pet) (o !! "name");
     species := default (species pet) (o !! "species") |}.

(** What a string column holds: NULL or a string. *)
Definition is_column (v : json) : bool :=
  match v with
  | JNull | JStr _ => true
  | _ => false
  end.

(** The storage invariant: every row carries an id between 1 and the
    counter and column values in its fields, ids are pairwise distinct,
    and the counter never passes the largest 64-bit integer by more
    than one. *)
Definition row_ok (bound : Z) (p : Pet) : Prop :=
  (∃ i, id p = Some i ∧ 1 ≤ i < bound)
  ∧ is_column (name p) = true ∧ is_column (species p) = true.

Record wf (db : database) : Prop := mk_wf {
  wf_next : 1 ≤ next_id db ≤ 2 ^ 63;
  wf_rows : Forall (row_ok (next_id db)) (rows db);
  wf_nodup : NoDup (id <$> rows db);
}.

(** A response of a successful create. *)
Definition created (out : outcome) : Prop := ∃ body, out = Response body 201.

(** The id a successful create reports. *)
Definition created_id (r : request) (out : outcome) : option Z :=
  match r, out with
  | ReqCreate _, Response body 201 =>
      match body_field "id" body with
      | Some (JInt i) => Some i
      | _ => None
      end
  | _, _ => None
  end.

(** All ids handed out while serving [rs], in order. *)
Fixpoint issued_ids (rs : list request) (db : database) : list Z :=
  match rs with
  | [] => []
  | r :: rs' =>
      let '(out, db1) := handle r db in
      match created_id r out with
      | Some i => i :: issued_ids rs' db1
      | None => issued_ids rs' db1
      end
  end.

(** Rows without a null field, and requests none of whose [name] and
    [species] values a column stores as NULL ([null] and NaN are the
    ones it does). *)
Definition non_null (p : Pet) : Prop := name p ≠ JNull ∧ species p ≠ JNull.

Definition stores_no_null (key : string) (data : json) : Prop :=
  ∀ v, body_field key data = Some v → to_column v ≠ inr JNull.

Definition supplies_no_null (r : request) : Prop :=
  match r with
  | ReqCreate data | ReqUpdate _ data =>
      stores_no_null "name" data ∧ stores_no_null "species" data
  | _ => True
  end.

(** Bodies that are JSON objects. *)
Definition is_obj (data : json) : bool :=
  match data with
  | JObj _ => true
  | _ => false
  end.

(** [sub] occurs in [s] as a contiguous run of characters. *)
Definition is_substring (sub s : string) : Prop :=
  ∃ pre post, s = String.append pre (String.append sub post).

(** The non-object bodies on which the assignments of [update_pet]
    cannot go through: values that support no [in] test, and lists or
    strings in which [in] finds one of the two keys. *)
Definition breaks_update (data : json) : Prop :=
  match data with
  | JNull | JBool _ | JInt _ | JFloat _ => True
  | JStr s => is_substring "name" s ∨ is_substring "species" s
  | JArr l => JStr "name" ∈ l ∨ JStr "species" ∈ l
  | JObj _ => False
  end.

(** The statuses each route can answer with. *)
Definition allowed_statuses (r : request) : list Z :=
  match r with
  | ReqCreate _ => [201; 400]
  | ReqList _ => [200]
  | ReqGet _ | ReqUpdate _ _ | ReqDelete _ => [200; 404]
  end.

(** Requests whose body, if they carry one, is a JSON object. *)
Definition object_body (r : request) : Prop :=
  match r with
  | ReqCreate data | ReqUpdate _ data => is_obj data = true
  | _ => True
  end.

(** Whether a record body passes the [species] filter of a listing. *)
Definition passes_filter (species_filter : option string) (body : json) : bool :=
  match species_filter with
  | Some (String a s') =>
      match body_field "species" body with
      | Some v => json_eq_str (String a s') v
      | None => false
      end
  | Some EmptyString | None => true
  end.

(** ** Sample data, after the test suite's [sample_pets] *)

Definition fido_body : gmap string json :=
  <["name" := JStr "Fido"]> (<["species" := JStr "Dog"]> ∅).
Definition whiskers_body : gmap string json :=
  <["name" := JStr "Whiskers"]> (<["species" := JStr "Cat"]> ∅).
Definition null_name_body : gmap string json := {["name" := JNull]}.

Definition fido : Pet :=
  {| id := Some 1; name := JStr "Fido"; species := JStr "Dog" |}.
Definition whiskers : Pet :=
  {| id := Some 2; name := JStr "Whiskers"; species := JStr "Cat" |}.
Definition nameless : Pet :=
  {| id := Some 1; name := JNull; species := JStr "Dog" |}.

Definition fido_db : database := {| rows := [fido]; next_id := 2 |}.
Definition two_pets_db : database :=
  {| rows := [fido; whiskers]; next_id := 3 |}.

(** ** Basic facts about the storage operations *)

Section storage_facts.
Implicit Types (db : database) (p q pet : Pet) (i j : Z).

Lemma in_int64_spec i : in_int64 i = true ↔ - 2 ^ 63 ≤ i < 2 ^ 63.
Proof. unfold in_int64. rewrite andb_true_iff, Z.leb_le, Z.ltb_lt. done. Qed.

Lemma session_get_Some i db p :
  session_get i db = Some p → id p = Some i ∧ p ∈ rows db.
Proof.
  unfold session_get, has_id. destruct (in_int64 i); [|done]. intros H.
  apply find_some in H as [Hin Hid].
  apply bool_decide_eq_true in Hid.
  split; [done | by apply list_elem_of_In].
Qed.

Lemma session_get_in_range i db p :
  session_get i db = Some p → in_int64 i = true.
Proof. unfold session_get. by destruct (in_int64 i). Qed.

Lemma session_get_None i db :
  in_int64 i = true →
  session_get i db = None ↔ ∀ p, p ∈ rows db → id p ≠ Some i.
Proof.
  unfold session_get, has_id. intros ->. split.
  - intros H p Hp Hid.
    apply list_elem_of_In in Hp.
    pose proof (find_none _ _ H p Hp) as Hf. simpl in Hf.
    by apply bool_decide_eq_false in Hf.
  - intros H. induction (rows db) as [|q l IH]; [done|]. simpl.
    rewrite bool_decide_eq_false_2; [|apply H; left].
    apply IH. intros p Hp. apply H. by right.
Qed.

Lemma session_get_absent i db :
  (∀ p, p ∈ rows db → id p ≠ Some i) → session_get i db = None.
Proof.
  intros H. destruct (in_int64 i) eqn:Hr; [by apply session_get_None|].
  unfold session_get. by rewrite Hr.
Qed.

Lemma db_session_get_found i db p :
  session_get i db = Some p → db_session_get i db = inr (Some p).
Proof.
  intros H. unfold db_session_get.
  by rewrite (session_get_in_range _ _ _ H), H.
Qed.

Lemma db_session_get_in_range i db :
  in_int64 i = true → db_session_get i db = inr (session_get i db).
Proof. intros H. unfold db_session_get. by rewrite H. Qed.

Lemma db_session_get_out_of_range i db :
  in_int64 i = false → db_session_get i db = inl OverflowError.
Proof. intros H. unfold db_session_get. by rewrite H. Qed.

Lemma db_session_get_inr i db r :
  db_session_get i db = inr r → in_int64 i = true ∧ r = session_get i db.
Proof.
  unfold db_session_get. destruct (in_int64 i); [|done].
  intros [= <-]. done.
Qed.

Lemma find_app_None {A} (f : A → bool) (l1 l2 : list A) :
  find f l1 = None → find f (l1 ++ l2) = find f l2.
Proof.
  induction l1 as [|a l1 IH]; [done|]. simpl.
  destruct (f a); [done | apply IH].
Qed.



Lemma session_get_update_row_eq i pet pet' db :
  id pet' = Some i → session_get i db = Some pet →
  session_get i (update_row pet' db) = Some pet'.
Proof.
  intros Hid. unfold session_get, update_row. simpl.
  destruct (in_int64 i); [|done].
  induction (rows db) as [|q l IH]; [done|]. simpl.
  destruct (has_id i q) eqn:Hq; intros H.
  - apply bool_decide_eq_true in Hq.
    rewrite bool_decide_eq_true_2 by congruence.
    by assert (has_id i pet' = true) as -> by by apply bool_decide_eq_true_2.
  - apply bool_decide_eq_false in Hq.
    rewrite bool_decide_eq_false_2 by congruence.
    assert (has_id i q = false) as -> by by apply bool_decide_eq_false_2.
    by apply IH.
Qed.

Lemma session_get_delete_eq i pet db :
  id pet = Some i → session_get i (session_delete_commit pet db) = None.
Proof.
  intros Hid. apply session_get_absent. simpl.
  intros p Hp. apply list_elem_of_filter in Hp as [Hp _]. congruence.
Qed.

Lemma session_get_delete_ne i j pet db :
  id pet = Some i → i ≠ j →
  session_get j (session_delete_commit pet db) = session_get j db.
Proof.
  intros Hid Hne. unfold session_get, session_delete_commit. simpl.
  destruct (in_int64 j); [|done].
  induction (rows db) as [|q l IH]; [done|].
  rewrite filter_cons. case_decide as Hq; simpl.
  - destruct (has_id j q); [done | apply IH].
  - assert (has_id j q = false) as ->
      by (apply bool_decide_eq_false_2; congruence).
    apply IH.
Qed.

Lemma update_row_ids pet db : id <$> rows (update_row pet db) = id <$> rows db.
Proof.
  simpl. rewrite <- list_fmap_compose. apply list_fmap_ext.
  intros _ q _. simpl. by case_bool_decide.
Qed.

Lemma update_row_twice p1 p2 db :
  id p1 = id p2 → update_row p2 (update_row p1 db) = update_row p2 db.
Proof.
  intros Hid. unfold update_row. simpl. f_equal.
  rewrite map_map. apply map_ext. intros q.
  destruct (decide (id q = id p1)) as [Hq|Hq].
  - rewrite (bool_decide_eq_true_2 (id q = id p1)) by done.
    rewrite (bool_decide_eq_true_2 (id p1 = id p2)) by done.
    by rewrite (bool_decide_eq_true_2 (id q = id p2)) by congruence.
  - by rewrite (bool_decide_eq_false_2 (id q = id p1)) by done.
Qed.

End storage_facts.

(** ** Binding values to the columns *)

Lemma to_column_is_column v c : to_column v = inr c → is_column c = true.
Proof.
  destruct v as [|b|n|f|s|l|o]; simpl; try (by intros [= <-]); try done.
  - destruct (in_int64 n); [by intros [= <-] | done].
  - intros [= <-]. by destruct (float_is_nan f).
Qed.

Lemma to_column_column c : is_column c = true → to_column c = inr c.
Proof. by destruct c. Qed.

Lemma to_column_again v c : to_column v = inr c → to_column c = inr c.
Proof. intros H. by apply to_column_column, (to_column_is_column v). Qed.

Lemma to_column_handler_error v e : to_column v = inl e → storage_error e = true.
Proof.
  destruct v as [|b|n|f|s|l|o]; simpl; try done; try (by intros [= <-]).
  destruct (in_int64 n); [done | by intros [= <-]].
Qed.

Lemma bind_columns_inr pet p :
  bind_columns pet = inr p ↔
  ∃ n s, to_column (name pet) = inr n ∧ to_column (species pet) = inr s
         ∧ p = {| id := id pet; name := n; species := s |}.
Proof.
  unfold bind_columns.
  destruct (to_column (name pet)) as [e|n]; simpl.
  { split; [done | by intros (? & ? & ? & _)]. }
  destruct (to_column (species pet)) as [e|s]; simpl.
  { split; [done | by intros (? & ? & _ & ? & _)]. }
  split.
  - intros [= <-]. by exists n, s.
  - intros (n' & s' & [= <-] & [= <-] & ->). done.
Qed.

Lemma bind_columns_id pet p : bind_columns pet = inr p → id p = id pet.
Proof. intros (n & s & _ & _ & ->)%bind_columns_inr. done. Qed.

Lemma bind_columns_is_column pet p :
  bind_columns pet = inr p →
  is_column (name p) = true ∧ is_column (species p) = true.
Proof.
  intros (n & s & Hn & Hs & ->)%bind_columns_inr. simpl.
  split; by eapply to_column_is_column.
Qed.

Lemma bind_columns_column p :
  is_column (name p) = true → is_column (species p) = true →
  bind_columns p = inr p.
Proof.
  intros Hn Hs. unfold bind_columns.
  rewrite !to_column_column by done. by destruct p.
Qed.

Lemma bind_columns_again pet p : bind_columns pet = inr p → bind_columns p = inr p.
Proof. intros [Hn Hs]%bind_columns_is_column. by apply bind_columns_column. Qed.

Lemma bind_columns_error pet e :
  bind_columns pet = inl e → storage_error e = true.
Proof.
  unfold bind_columns.
  destruct (to_column (name pet)) as [e1|n] eqn:Hn; simpl.
  { intros [= <-]. by eapply to_column_handler_error. }
  destruct (to_column (species pet)) as [e2|s] eqn:Hs; simpl; [|done].
  intros [= <-]. by eapply to_column_handler_error.
Qed.

(** ** The assignments of [update_pet] *)

Lemma assign_if_present_obj key o set pet :
  assign_if_present key (JObj o) set pet =
  inr (match o !! key with Some v => set v pet | None => pet end).
Proof.
  unfold assign_if_present. simpl.
  by destruct (o !! key) as [v|] eqn:Hk.
Qed.

Lemma update_fields_obj o pet : update_fields (JObj o) pet = inr (patched o pet).
Proof.
  unfold update_fields.
  rewrite assign_if_present_obj. unfold patched. destruct pet as [i n s].
  destruct (o !! "name") as [n'|]; simpl;
    rewrite assign_if_present_obj; by destruct (o !! "species").
Qed.

Lemma assign_if_present_id key data set pet pet' :
  (∀ v p, id (set v p) = id p) →
  assign_if_present key data set pet = inr pet' → id pet' = id pet.
Proof.
  intros Hset. unfold assign_if_present.
  destruct (py_in key data) as [e|[]]; simpl; [done| |by intros [= <-]].
  destruct (py_getitem key data) as [e|v]; simpl; [done|].
  intros [= <-]. apply Hset.
Qed.

Lemma update_fields_id data pet pet' :
  update_fields data pet = inr pet' → id pet' = id pet.
Proof.
  unfold update_fields.
  destruct (assign_if_present "name" data set_name pet) as [e|pet1] eqn:H1;
    simpl; [done|].
  intros H2.
  apply assign_if_present_id in H1; [|done].
  apply assign_if_present_id in H2; [|done]. congruence.
Qed.

(** ** What a request can do to the table *)

(** A create leaves the table alone or appends one row of column
    values under the counter, which it advances. *)
Lemma create_pet_cases data db :
  ((∃ e, (create_pet data db).1 = Raise e)
   ∨ (create_pet data db).1 = Response required_error 400)
  ∧ (create_pet data db).2 = db
  ∨ ∃ o n s pet,
      data = JObj o
      ∧ o !! "name" = Some n ∧ truthy n = true
      ∧ o !! "species" = Some s ∧ truthy s = true
      ∧ to_column n = inr (name pet) ∧ to_column s = inr (species pet)
      ∧ id pet = Some (next_id db) ∧ in_int64 (next_id db) = true
      ∧ create_pet data db =
          (Response (pet_json pet) 201,
           {| rows := rows db ++ [pet]; next_id := next_id db + 1 |}).
Proof.
  unfold create_pet, create_invalid.
  destruct (truthy data) eqn:Ht; simpl; [|left; split; [by right | done]].
  destruct data as [| | | | | |o]; simpl;
    try (left; split; [left; by eexists | done]).
  destruct (o !! "name") as [n|] eqn:Hon; simpl; [|left; split; [by right | done]].
  destruct (truthy n) eqn:Hn; simpl; [|left; split; [by right | done]].
  destruct (o !! "species") as [s|] eqn:Hos; simpl; [|left; split; [by right | done]].
  destruct (truthy s) eqn:Hs; simpl; [|left; split; [by right | done]].
  unfold session_add_commit, bind_columns. simpl.
  destruct (to_column n) as [e|n'] eqn:Hcn; simpl;
    [left; split; [left; by eexists | done]|].
  destruct (to_column s) as [e|s'] eqn:Hcs; simpl;
    [left; split; [left; by eexists | done]|].
  destruct (in_int64 (next_id db)) eqn:Hr; simpl;
    [|left; split; [left; by eexists | done]].
  right. exists o, n, s, {| id := Some (next_id db); name := n'; species := s' |}.
  by split_and!.
Qed.

(** A create request answers 201 only by appending the row it reports. *)
Lemma create_pet_201_inv data db body db' :
  create_pet data db = (Response body 201, db') →
  ∃ pet,
    body = pet_json pet
    ∧ db' = {| rows := rows db ++ [pet]; next_id := next_id db + 1 |}
    ∧ id pet = Some (next_id db)
    ∧ in_int64 (next_id db) = true
    ∧ (∃ n, body_field "name" data = Some n ∧ to_column n = inr (name pet))
    ∧ (∃ s, body_field "species" data = Some s ∧ to_column s = inr (species pet)).
Proof.
  intros Hc.
  destruct (create_pet_cases data db)
    as [[[[e He]|He] _]|(o & n & s & pet & -> & Hn & _ & Hs & _ & Hcn & Hcs
                          & Hid & Hr & Heq)].
  - by rewrite Hc in He.
  - rewrite Hc in He. simpl in He. by injection He.
  - rewrite Hc in Heq. injection Heq as -> ->.
    exists pet. split_and!; [done..| |]; simpl; eauto.
Qed.

(** An update leaves the table alone or rewrites the row it found with
    column values. *)
Lemma update_pet_cases pet_id data db :
  ((∃ e, (update_pet pet_id data db).1 = Raise e)
   ∨ (update_pet pet_id data db).1 = Response not_found_error 404)
  ∧ (update_pet pet_id data db).2 = db
  ∨ ∃ pet pet2 p,
      session_get pet_id db = Some pet
      ∧ update_fields data pet = inr pet2
      ∧ bind_columns pet2 = inr p
      ∧ update_pet pet_id data db = (Response (pet_json p) 200, update_row p db).
Proof.
  unfold update_pet, db_session_get.
  destruct (in_int64 pet_id) eqn:Hr; simpl;
    [|left; split; [left; by eexists | done]].
  destruct (session_get pet_id db) as [pet|] eqn:Hget;
    [|left; split; [by right | done]].
  destruct (update_fields data pet) as [e|pet2] eqn:Hupd; simpl;
    [left; split; [left; by eexists | done]|].
  unfold session_commit.
  destruct (bind_columns pet2) as [e|p] eqn:Hb; simpl;
    [left; split; [left; by eexists | done]|].
  right. by exists pet, pet2, p.
Qed.

Lemma update_pet_found pet_id pet data db :
  session_get pet_id db = Some pet →
  update_pet pet_id data db =
  match (pet2 ← update_fields data pet; bind_columns pet2) with
  | inl e => (Raise e, db)
  | inr p => (Response (pet_json p) 200, update_row p db)
  end.
Proof.
  intros Hget. unfold update_pet. rewrite (db_session_get_found _ _ _ Hget).
  destruct (update_fields data pet) as [e|pet2]; simpl; [done|].
  unfold session_commit. by destruct (bind_columns pet2).
Qed.

Lemma delete_pet_found pet_id pet db :
  session_get pet_id db = Some pet →
  delete_pet pet_id db = (Response deleted_message 200, session_delete_commit pet db).
Proof.
  intros Hget. unfold delete_pet. by rewrite (db_session_get_found _ _ _ Hget).
Qed.

Lemma get_pet_found pet_id pet db :
  session_get pet_id db = Some pet →
  get_pet pet_id db = Response (pet_json pet) 200.
Proof.
  intros Hget. unfold get_pet. by rewrite (db_session_get_found _ _ _ Hget).
Qed.

(** ** The storage invariant *)

Lemma row_ok_mono b b' p : b ≤ b' → row_ok b p → row_ok b' p.
Proof. intros Hb [(i & Hi & Hr) Hc]. split; [|done]. exists i. split; [done | lia]. Qed.

Lemma wf_empty : wf empty_db.
Proof. split; simpl; [lia | constructor | constructor]. Qed.

Lemma wf_add pet db :
  wf db → id pet = Some (next_id db) → in_int64 (next_id db) = true →
  is_column (name pet) = true → is_column (species pet) = true →
  wf {| rows := rows db ++ [pet]; next_id := next_id db + 1 |}.
Proof.
  intros [Hn Hr Hd] Hid Hrange%in_int64_spec Hcn Hcs. split; simpl.
  - lia.
  - apply Forall_app. split.
    + eapply Forall_impl; [done|]. intros p. apply row_ok_mono. lia.
    + repeat constructor; [|done..]. exists (next_id db). split; [done | lia].
  - rewrite fmap_app. apply NoDup_app. split_and!; [done| |apply NoDup_singleton].
    intros x Hx. simpl. rewrite list_elem_of_singleton. intros ->.
    apply list_elem_of_fmap in Hx as (p & Hp & Hin).
    rewrite Forall_forall in Hr. destruct (Hr p Hin) as [(i & Hi & Hlt) _].
    assert (i = next_id db) by congruence. lia.
Qed.

Lemma wf_update_row i pet pet' db :
  wf db → session_get i db = Some pet → id pet' = id pet →
  is_column (name pet') = true → is_column (species pet') = true →
  wf (update_row pet' db).
Proof.
  intros [Hn Hr Hd] Hget Hid Hcn Hcs. split.
  - done.
  - simpl. apply Forall_fmap. eapply Forall_impl; [done|].
    intros q Hrow. simpl. case_bool_decide as Hq; [|done].
    destruct Hrow as [(j & Hj & Hlt) _].
    split; [|done]. exists j. split; [congruence | done].
  - by rewrite update_row_ids.
Qed.

Lemma wf_delete pet db : wf db → wf (session_delete_commit pet db).
Proof.
  intros [Hn Hr Hd]. split; simpl.
  - done.
  - rewrite Forall_forall in Hr |- *.
    intros p Hp. apply list_elem_of_filter in Hp as [_ Hp]. by apply Hr.
  - eapply sublist_NoDup; [done|]. apply fmap_sublist, sublist_filter.
Qed.

Lemma wf_handle r db : wf db → wf (handle r db).2.
Proof.
  intros Hwf. destruct r as [data|f|i|i data|i]; simpl; try done.
  - destruct (create_pet_cases data db)
      as [[_ ->]|(o & n & s & pet & _ & _ & _ & _ & _ & Hcn & Hcs & Hid & Hr & ->)];
      [done|]. simpl.
    apply wf_add; [done..| |]; by eapply to_column_is_column.
  - destruct (update_pet_cases i data db)
      as [[_ ->]|(pet & pet2 & p & Hget & Hupd & Hb & ->)]; [done|]. simpl.
    destruct (bind_columns_is_column _ _ Hb).
    eapply wf_update_row; [done..| |done|done].
    rewrite (bind_columns_id _ _ Hb). by apply update_fields_id in Hupd.
  - unfold delete_pet. destruct (db_session_get i db) as [e|[pet|]]; [done| |done].
    by apply wf_delete.
Qed.

Lemma reachable_wf db : reachable db → wf db.
Proof. induction 1; [apply wf_empty | by apply wf_handle]. Qed.

Lemma wf_session_get_fresh db : wf db → session_get (next_id db) db = None.
Proof.
  intros [_ Hr _]. apply session_get_absent. intros p Hp Hid.
  rewrite Forall_forall in Hr. destruct (Hr p Hp) as [(i & Hi & Hlt) _].
  assert (i = next_id db) by congruence. lia.
Qed.

Lemma wf_row_in_range db p i :
  wf db → p ∈ rows db → id p = Some i → in_int64 i = true.
Proof.
  intros [Hn Hr _] Hp Hid. rewrite Forall_forall in Hr.
  destruct (Hr p Hp) as [(j & Hj & Hlt) _].
  assert (j = i) as -> by congruence. apply in_int64_spec. lia.
Qed.

(** With distinct ids, the row found by a look-up is the only one
    carrying that id. *)
Lemma wf_id_inj db p q :
  wf db → p ∈ rows db → q ∈ rows db → id p = id q → p = q.
Proof.
  intros [_ _ Hd]. revert Hd. induction (rows db) as [|a l IH]; simpl.
  - by intros _ ?%elem_of_nil.
  - rewrite NoDup_cons. intros [Hn Hd] Hp Hq Hid.
    apply elem_of_cons in Hp as [->|Hp]; apply elem_of_cons in Hq as [->|Hq].
    + done.
    + exfalso. apply Hn. rewrite Hid. by apply list_elem_of_fmap_2.
    + exfalso. apply Hn. rewrite <- Hid. by apply list_elem_of_fmap_2.
    + by apply IH.
Qed.

Lemma wf_session_get_row db p i :
  wf db → p ∈ rows db → id p = Some i → session_get i db = Some p.
Proof.
  intros Hwf Hp Hid.
  pose proof (wf_row_in_range _ _ _ Hwf Hp Hid) as Hr.
  destruct (session_get i db) as [q|] eqn:Hq.
  - destruct (session_get_Some _ _ _ Hq) as [Hqi Hqin].
    f_equal. apply (wf_id_inj db); [done..|congruence].
  - exfalso. by apply (proj1 (session_get_None i db Hr) Hq p).
Qed.

Lemma wf_row_columns db p :
  wf db → p ∈ rows db → bind_columns p = inr p.
Proof.
  intros [_ Hr _] Hp. rewrite Forall_forall in Hr.
  destruct (Hr p Hp) as [_ [Hn Hs]]. by apply bind_columns_column.
Qed.

Lemma update_row_same i pet db :
  wf db → session_get i db = Some pet → update_row pet db = db.
Proof.
  intros Hwf Hget. destruct (session_get_Some _ _ _ Hget) as [Hid Hin].
  unfold update_row. destruct db as [l nx]. simpl in *. f_equal.
  transitivity (map (fun q : Pet => q) l); [|apply map_id].
  apply map_ext_in. intros q Hq%list_elem_of_In.
  case_bool_decide as Hqid; [|done].
  symmetry. by apply (wf_id_inj {| rows := l; next_id := nx |}).
Qed.

Lemma session_get_app_new i pet db :
  wf db → i = next_id db → in_int64 i = true → id pet = Some i →
  session_get i {| rows := rows db ++ [pet]; next_id := next_id db + 1 |}
  = Some pet.
Proof.
  intros Hwf -> Hr Hid. pose proof (wf_session_get_fresh _ Hwf) as Hfresh.
  unfold session_get in *. simpl. rewrite Hr in *.
  rewrite find_app_None by done.
  simpl. by assert (has_id (next_id db) pet = true) as ->
    by by apply bool_decide_eq_true_2.
Qed.


Lemma pet_json_id pet i :
  id pet = Some i → body_field "id" (pet_json pet) = Some (JInt i).
Proof. intros Hid. simpl. by rewrite lookup_insert_eq, Hid. Qed.

Lemma pet_json_name pet : body_field "name" (pet_json pet) = Some (name pet).
Proof. done. Qed.

Lemma pet_json_species pet :
  body_field "species" (pet_json pet) = Some (species pet).
Proof. done. Qed.

Lemma fido_db_reachable : reachable fido_db.
Proof. exact (reachable_step (ReqCreate (JObj fido_body)) _ reachable_init). Defined.

Lemma two_pets_db_reachable : reachable two_pets_db.
Proof.
  exact (reachable_step (ReqCreate (JObj whiskers_body)) _ fido_db_reachable).
Defined.

(** ** Creation *)

Lemma truthy_obj_lookup (o : gmap string json) key v :
  o !! key = Some v → truthy (JObj o) = true.
Proof.
  intros Hk. simpl. apply negb_true_iff, Nat.eqb_neq.
  intros Hs. apply map_size_empty_iff in Hs. subst o.
  by rewrite lookup_empty in Hk.
Qed.

Lemma create_invalid_obj (o : gmap string json) :
  create_invalid (JObj o)
  = inr (negb (truthy (default JNull (o !! "name")))
         || negb (truthy (default JNull (o !! "species")))).
Proof.
  unfold create_invalid. destruct (truthy (JObj o)) eqn:Ht; simpl.
  - by destruct (truthy (default JNull (o !! "name"))).
  - simpl in Ht. apply negb_false_iff, Nat.eqb_eq, map_size_empty_iff in Ht.
    by subst o.
Qed.







(** ** Unknown ids *)

(** C4 (counterexample): no row of the empty table carries the id 2^63,
    yet get-one on it does not answer 404: the look-up raises. *)
Lemma not_found_overflow_counterexample :
  (∀ p, p ∈ rows empty_db → id p ≠ Some (2 ^ 63))
  ∧ handle (ReqGet (2 ^ 63)) empty_db = (Raise OverflowError, empty_db)
  ∧ handle (ReqUpdate (2 ^ 63) (JObj fido_body)) empty_db
    = (Raise OverflowError, empty_db)
  ∧ handle (ReqDelete (2 ^ 63)) empty_db = (Raise OverflowError, empty_db).
Proof.
  split_and!; [|reflexivity..].
  simpl. intros p Hp. by apply elem_of_nil in Hp.
Qed.

(** C4 (amended): for an id within the range of a 64-bit integer (for
    the non-negative ids the route delivers: below 2^63) that no row of
    the table carries, get-one, update (whatever its body) and delete
    all answer 404 with the same body [{"error": "Pet not found"}], and
    the table is left as it was. *)
Theorem not_found_uniform (pet_id : Z) (data : json) (db : database) :
  - 2 ^ 63 ≤ pet_id < 2 ^ 63 →
  (∀ p, p ∈ rows db → id p ≠ Some pet_id) →
  let not_found := Response (JObj {["error" := JStr "Pet not found"]}) 404 in
  handle (ReqGet pet_id) db = (not_found, db)
  ∧ handle (ReqUpdate pet_id data) db = (not_found, db)
  ∧ handle (ReqDelete pet_id) db = (not_found, db).
Proof.
  intros Hr%in_int64_spec Hnone%session_get_absent not_found. simpl.
  unfold get_pet, update_pet, delete_pet.
  by rewrite db_session_get_in_range, Hnone.
Qed.

Lemma not_found_uniform_witness :
  handle (ReqGet 999) empty_db = (Response not_found_error 404, empty_db)
  ∧ handle (ReqUpdate 999 (JObj fido_body)) empty_db
    = (Response not_found_error 404, empty_db)
  ∧ handle (ReqDelete 999) empty_db = (Response not_found_error 404, empty_db).
Proof.
  apply (not_found_uniform 999 (JObj fido_body) empty_db).
  - lia.
  - simpl. intros p Hp. by apply elem_of_nil in Hp.
Defined.

(** ** Deletion *)

(** C6: deleting an existing id answers 200 with
    [{"message": "Pet deleted successfully"}]; afterwards a get-one on
    that id answers 404, the table is the old one without the rows of
    that id (the remaining rows unchanged and in their order), and
    look-ups of every other id are as before. *)
Theorem delete_pet_removes (pet_id : Z) (pet : Pet) (db : database) :
  session_get pet_id db = Some pet →
  ∃ db',
    delete_pet pet_id db =
      (Response (JObj {["message" := JStr "Pet deleted successfully"]}) 200, db')
    ∧ get_pet pet_id db' =
        Response (JObj {["error" := JStr "Pet not found"]}) 404
    ∧ rows db' = filter (fun q => id q ≠ Some pet_id) (rows db)
    ∧ next_id db' = next_id db
    ∧ (∀ j, j ≠ pet_id → session_get j db' = session_get j db).
Proof.
  intros Hget. destruct (session_get_Some _ _ _ Hget) as [Hid _].
  pose proof (session_get_in_range _ _ _ Hget) as Hr.
  exists (session_delete_commit pet db). split_and!.
  - by apply delete_pet_found.
  - unfold get_pet.
    by rewrite db_session_get_in_range, session_get_delete_eq.
  - simpl. by rewrite Hid.
  - done.
  - intros j Hj. by apply session_get_delete_ne with pet_id.
Qed.

Lemma delete_pet_removes_witness :
  ∃ db',
    delete_pet 1 fido_db = (Response deleted_message 200, db')
    ∧ get_pet 1 db' = Response not_found_error 404
    ∧ rows db' = filter (fun q => id q ≠ Some 1) (rows fido_db)
    ∧ next_id db' = next_id fido_db
    ∧ (∀ j, j ≠ 1 → session_get j db' = session_get j fido_db).
Proof. apply (delete_pet_removes 1 fido fido_db). reflexivity. Defined.

(** ** Update *)




Lemma patched_empty pet : patched ∅ pet = pet.
Proof. by destruct pet. Qed.

(** C10: updating an existing id with the empty object [{}] answers
    200 with the record as it is and leaves the whole table as it
    was. *)
Theorem update_pet_empty_identity (pet_id : Z) (pet : Pet) (db : database) :
  reachable db →
  session_get pet_id db = Some pet →
  update_pet pet_id (JObj ∅) db = (Response (pet_json pet) 200, db).
Proof.
  intros Hwf%reachable_wf Hget.
  destruct (session_get_Some _ _ _ Hget) as [_ Hin].
  rewrite (update_pet_found _ _ _ _ Hget), update_fields_obj, patched_empty.
  simpl. rewrite (wf_row_columns db) by done.
  by rewrite (update_row_same pet_id).
Qed.

Lemma update_pet_empty_identity_witness :
  update_pet 1 (JObj ∅) fido_db = (Response (pet_json fido) 200, fido_db).
Proof.
  apply (update_pet_empty_identity 1 fido fido_db fido_db_reachable).
  reflexivity.
Defined.

(** ** Listing *)

Lemma json_eq_str_spec s v : json_eq_str s v = true ↔ v = JStr s.
Proof.
  destruct v; simpl; try (split; congruence).
  rewrite bool_decide_eq_true. split; congruence.
Qed.

(** C5 (counterexample): an empty [species] parameter is falsy, so
    [?species=] lists every record instead of the records whose species
    is the empty string. *)
Lemma get_pets_empty_filter_counterexample :
  get_pets (Some "") fido_db
  ≠ Response (JArr (pet_json <$> query_filter_by_species "" fido_db)) 200.
Proof. vm_compute. intros [=]. Qed.

(** C5 (amended): listing always answers 200 with the array of the
    selected records in table order.  With a non-empty [species]
    parameter the selected records are exactly the rows whose species
    is that very string; with the parameter absent, or present but
    empty, they are all rows. *)
Theorem get_pets_filter (species_filter : option string) (db : database) :
  ∃ pets,
    get_pets species_filter db = Response (JArr (pet_json <$> pets)) 200
    ∧ match species_filter with
      | Some (String a s') =>
          pets = filter (fun p => json_eq_str (String a s') (species p)) (rows db)
          ∧ ∀ p, p ∈ pets ↔ p ∈ rows db ∧ species p = JStr (String a s')
      | Some EmptyString | None => pets = rows db
      end.
Proof.
  destruct species_filter as [[|a s']|]; simpl.
  - by exists (rows db).
  - exists (query_filter_by_species (String a s') db).
    split; [done|]. split; [done|].
    intros p. unfold query_filter_by_species.
    rewrite list_elem_of_filter, Is_true_true, json_eq_str_spec. tauto.
  - by exists (rows db).
Qed.

(** The comparison is case-sensitive and is no substring test. *)
Example get_pets_exact_match :
  get_pets (Some "Cat") two_pets_db = Response (JArr [pet_json whiskers]) 200
  ∧ get_pets (Some "cat") two_pets_db = Response (JArr []) 200
  ∧ get_pets (Some "Ca") two_pets_db = Response (JArr []) 200.
Proof. by split_and!. Qed.

Lemma serve_cons r rs db :
  serve (r :: rs) db =
  let '(out, db1) := handle r db in
  let '(outs, db2) := serve rs db1 in
  (out :: outs, db2).
Proof. done. Qed.

Lemma serve_creates (ds : list json) : ∀ db outs db',
  serve (ReqCreate <$> ds) db = (outs, db') →
  Forall created outs →
  ∃ pets : list Pet,
    rows db' = (rows db ++ pets)%list
    ∧ outs = (fun p => Response (pet_json p) 201) <$> pets
    ∧ length pets = length ds
    ∧ ∀ (k : nat) d p, ds !! k = Some d → pets !! k = Some p →
        id p = Some (next_id db + Z.of_nat k)
        ∧ (∃ n, body_field "name" d = Some n ∧ to_column n = inr (name p))
        ∧ (∃ s, body_field "species" d = Some s
                ∧ to_column s = inr (species p)).
Proof.
  induction ds as [|d ds IH]; intros db outs db'.
  - intros [= <- <-] _. exists []. rewrite app_nil_r. by split_and!.
  - rewrite fmap_cons, serve_cons. unfold handle.
    destruct (create_pet d db) as [out db1] eqn:Hc.
    destruct (serve (ReqCreate <$> ds) db1) as [outs' db2] eqn:Hs.
    intros [= <- <-]. rewrite Forall_cons. intros [[body ->] Houts].
    apply create_pet_201_inv in Hc as (pet & -> & -> & Hid & _ & Hn & Hsp).
    destruct (IH _ _ _ Hs Houts) as (pets & Hrows & -> & Hlen & Hk).
    simpl in *. exists (pet :: pets). split_and!.
    + by rewrite Hrows, <- app_assoc.
    + done.
    + simpl. by rewrite Hlen.
    + intros [|k] d' p; simpl.
      * intros [= <-] [= <-]. rewrite Z.add_0_r. by split_and!.
      * intros Hd Hp. destruct (Hk k d' p Hd Hp) as (Hi & ? & ?).
        split_and!; [|done..]. rewrite Hi. f_equal. lia.
Qed.

(** C7: listing an empty table answers the empty array, whatever the
    filter; and after a sequence of N successful creates on an empty
    table, listing without filter answers exactly the N records those
    creates reported, in the order of creation: the k-th record (from
    0) is the body of the k-th create response, its id is the k-th id
    handed out, and its name and species are those of the k-th request
    as the columns hold them. *)
Theorem list_after_creates
    (db0 : database) (species_filter : option string)
    (ds : list json) (outs : list outcome) (db : database) :
  rows db0 = [] →
  get_pets species_filter db0 = Response (JArr []) 200
  ∧ (serve (ReqCreate <$> ds) db0 = (outs, db) →
     Forall created outs →
     ∃ bodies,
       get_pets None db = Response (JArr bodies) 200
       ∧ length bodies = length ds
       ∧ outs = (fun b => Response b 201) <$> bodies
       ∧ ∀ (k : nat) d b, ds !! k = Some d → bodies !! k = Some b →
           body_field "id" b = Some (JInt (next_id db0 + Z.of_nat k))
           ∧ (∃ n c, body_field "name" d = Some n ∧ to_column n = inr c
                     ∧ body_field "name" b = Some c)
           ∧ (∃ s c, body_field "species" d = Some s ∧ to_column s = inr c
                     ∧ body_field "species" b = Some c)).
Proof.
  intros Hempty. split.
  - unfold get_pets, query_all, query_filter_by_species. rewrite Hempty.
    destruct species_filter as [s|]; [|done]. by destruct (truthy (JStr s)).
  - intros Hs Houts.
    destruct (serve_creates _ _ _ _ Hs Houts) as (pets & Hrows & -> & Hlen & Hk).
    rewrite Hempty in Hrows. simpl in Hrows.
    exists (pet_json <$> pets). split_and!.
    + unfold get_pets, query_all. by rewrite Hrows.
    + by rewrite length_fmap.
    + by rewrite <- list_fmap_compose.
    + intros k d b Hd Hb. rewrite list_lookup_fmap in Hb.
      destruct (pets !! k) as [p|] eqn:Hp; [|done]. injection Hb as <-.
      destruct (Hk k d p Hd Hp) as (Hi & (n & Hn & Hcn) & (s & Hsp & Hcs)).
      split_and!.
      * by apply pet_json_id.
      * by exists n, (name p).
      * by exists s, (species p).
Qed.

Lemma list_after_creates_witness :
  ∃ bodies,
    get_pets None two_pets_db = Response (JArr bodies) 200
    ∧ length bodies = 2%nat.
Proof.
  destruct (list_after_creates empty_db None
              [JObj fido_body; JObj whiskers_body]
              [Response (pet_json fido) 201; Response (pet_json whiskers) 201]
              two_pets_db eq_refl) as [_ H].
  destruct H as (bodies & H1 & H2 & _).
  - reflexivity.
  - repeat constructor; eexists; reflexivity.
  - exists bodies. split; [exact H1 | exact H2].
Defined.

(** ** Null fields *)

(** C8 (failing input): [update_pet] assigns whatever value the body
    carries, without the check [create_pet] makes, so after creating
    Fido an update with [{"name": null}] answers 200 and leaves a row
    whose name is null in the table. *)
Theorem update_pet_stores_null_name :
  serve [ReqCreate (JObj fido_body); ReqUpdate 1 (JObj null_name_body)] empty_db
  = ([Response (pet_json fido) 201; Response (pet_json nameless) 200],
     {| rows := [nameless]; next_id := 2 |})
  ∧ name nameless = JNull.
Proof. split; reflexivity. Qed.

(** ** Identifiers *)

Lemma handle_next_id r db out db1 :
  handle r db = (out, db1) →
  match created_id r out with
  | Some i => i = next_id db ∧ next_id db1 = next_id db + 1
  | None => next_id db ≤ next_id db1
  end.
Proof.
  destruct r as [data|f|i|i data|i]; cbn [handle].
  - intros Hc. destruct out as [body st|e].
    + destruct (decide (st = 201)) as [->|Hst].
      * apply create_pet_201_inv in Hc as (pet & -> & -> & Hid & _).
        simpl. rewrite lookup_insert_eq, Hid. simpl. by split.
      * assert (created_id (ReqCreate data) (Response body st) = None) as ->.
        { simpl. by repeat case_match. }
        destruct (create_pet_cases data db)
          as [[_ Hdb]|(o & n & s & pet & _ & _ & _ & _ & _ & _ & _ & _ & _ & Heq)].
        -- rewrite Hc in Hdb. simpl in Hdb. subst. lia.
        -- rewrite Hc in Heq. by simplify_eq.
    + simpl.
      destruct (create_pet_cases data db)
        as [[_ Hdb]|(o & n & s & pet & _ & _ & _ & _ & _ & _ & _ & _ & _ & Heq)].
      * rewrite Hc in Hdb. simpl in Hdb. subst. lia.
      * by rewrite Hc in Heq.
  - intros [= <- <-]. simpl. lia.
  - intros [= <- <-]. simpl. lia.
  - intros H. simpl.
    destruct (update_pet_cases i data db)
      as [[_ Hdb]|(pet & pet2 & p & _ & _ & _ & Heq)].
    + rewrite H in Hdb. simpl in Hdb. subst. lia.
    + rewrite H in Heq. simplify_eq. simpl. lia.
  - unfold delete_pet. intros H. simpl.
    destruct (db_session_get i db) as [e|[pet|]];
      injection H as <- <-; simpl; lia.
Qed.

Lemma issued_ids_bound rs : ∀ db,
  Forall (fun i => next_id db ≤ i) (issued_ids rs db) ∧ NoDup (issued_ids rs db).
Proof.
  induction rs as [|r rs IH]; intros db; simpl.
  - split; constructor.
  - destruct (handle r db) as [out db1] eqn:Hh.
    apply handle_next_id in Hh. destruct (IH db1) as [Hb Hd].
    destruct (created_id r out) as [i|].
    + destruct Hh as [-> Hn]. split.
      * constructor; [lia|]. eapply Forall_impl; [done|]. simpl. lia.
      * constructor; [|done]. rewrite Forall_forall in Hb.
        intros Hin%Hb. lia.
    + split; [|done]. eapply Forall_impl; [done|]. simpl. lia.
Qed.

Lemma create_pet_ignores_id o v db :
  create_pet (JObj (<["id" := v]> o)) db = create_pet (JObj o) db.
Proof.
  unfold create_pet. rewrite !create_invalid_obj. cbn [py_getitem].
  by rewrite !lookup_insert_ne.
Qed.

Lemma update_pet_ignores_id i o v db :
  update_pet i (JObj (<["id" := v]> o)) db = update_pet i (JObj o) db.
Proof.
  unfold update_pet. destruct (db_session_get i db) as [e|[pet|]]; [done| |done].
  rewrite !update_fields_obj. unfold patched.
  by rewrite !lookup_insert_ne.
Qed.

Lemma update_pet_keeps_ids i data db :
  id <$> rows (update_pet i data db).2 = id <$> rows db.
Proof.
  destruct (update_pet_cases i data db)
    as [[_ ->]|(pet & pet2 & p & _ & _ & _ & ->)]; [done|].
  apply update_row_ids.
Qed.

(** C9: ids come from the storage layer alone.  An [id] key in a create
    or update body changes nothing; an update leaves the id of every
    row as it is; the id a successful create reports is the table's
    counter, which no row of the table carries; and over any sequence
    of requests served from the empty table, deletions included, the
    ids handed out are positive and pairwise distinct. *)
Theorem ids_storage_assigned :
  (∀ o v db, create_pet (JObj (<["id" := v]> o)) db = create_pet (JObj o) db)
  ∧ (∀ i o v db,
       update_pet i (JObj (<["id" := v]> o)) db = update_pet i (JObj o) db)
  ∧ (∀ i data db, id <$> rows (update_pet i data db).2 = id <$> rows db)
  ∧ (∀ data db out db',
       reachable db → handle (ReqCreate data) db = (out, db') →
       ∀ i, created_id (ReqCreate data) out = Some i →
         i = next_id db ∧ session_get i db = None
         ∧ next_id db' = next_id db + 1)
  ∧ (∀ rs, NoDup (issued_ids rs empty_db)
           ∧ Forall (fun i => 1 ≤ i) (issued_ids rs empty_db)).
Proof.
  split_and!.
  - apply create_pet_ignores_id.
  - apply update_pet_ignores_id.
  - apply update_pet_keeps_ids.
  - intros data db out db' Hreach%reachable_wf Hh i Hi.
    apply handle_next_id in Hh. rewrite Hi in Hh. destruct Hh as [-> Hn].
    split_and!; [done | by apply wf_session_get_fresh | done].
  - intros rs. destruct (issued_ids_bound rs empty_db) as [Hb Hd].
    split; [done|]. eapply Forall_impl; [done|]. simpl. lia.
Qed.

Lemma ids_storage_assigned_witness :
  issued_ids [ReqCreate (JObj fido_body); ReqDelete 1;
              ReqCreate (JObj whiskers_body)] empty_db = [1; 2]
  ∧ NoDup (issued_ids [ReqCreate (JObj fido_body); ReqDelete 1;
                       ReqCreate (JObj whiskers_body)] empty_db).
Proof.
  split; [reflexivity|].
  destruct ids_storage_assigned as (_ & _ & _ & _ & H).
  apply (H [ReqCreate (JObj fido_body); ReqDelete 1;
            ReqCreate (JObj whiskers_body)]).
Defined.

(** * Further properties of the handlers *)

(** ** Reading back what was written *)

(** X1: a record that was just created can be fetched under the id the
    create response reports, and get-one answers 200 with the very body
    the create answered. *)
Theorem create_then_get (data : json) (db db' : database) (body : json) :
  reachable db →
  create_pet data db = (Response body 201, db') →
  ∃ i, body_field "id" body = Some (JInt i)
       ∧ get_pet i db' = Response body 200.
Proof.
  intros Hwf%reachable_wf Hc.
  apply create_pet_201_inv in Hc as (pet & -> & -> & Hid & Hr & _).
  exists (next_id db). split; [by apply pet_json_id|].
  apply get_pet_found. by apply session_get_app_new.
Qed.

Lemma create_then_get_witness :
  ∃ i, body_field "id" (pet_json fido) = Some (JInt i)
       ∧ get_pet i fido_db = Response (pet_json fido) 200.
Proof.
  apply (create_then_get (JObj fido_body) empty_db fido_db (pet_json fido)
           reachable_init).
  reflexivity.
Defined.

(** X2: whenever an update answers 200, whatever its body was, a
    get-one on the same id afterwards answers 200 with the same
    record. *)
Theorem update_then_get
    (pet_id : Z) (data : json) (db db' : database) (body : json) :
  update_pet pet_id data db = (Response body 200, db') →
  get_pet pet_id db' = Response body 200.
Proof.
  intros Hu.
  destruct (update_pet_cases pet_id data db)
    as [[[[e He]|He] _]|(pet & pet2 & p & Hget & Hupd & Hb & Heq)].
  - by rewrite Hu in He.
  - rewrite Hu in He. simpl in He. by injection He.
  - rewrite Hu in Heq. injection Heq as -> ->.
    destruct (session_get_Some _ _ _ Hget) as [Hid _].
    apply get_pet_found, session_get_update_row_eq with pet; [|done].
    rewrite (bind_columns_id _ _ Hb).
    apply update_fields_id in Hupd. congruence.
Qed.

Lemma update_then_get_witness :
  get_pet 1 {| rows := [nameless]; next_id := 2 |}
  = Response (pet_json nameless) 200.
Proof.
  apply (update_then_get 1 (JObj null_name_body) fido_db). reflexivity.
Defined.

(** X3: in every reachable table, each record of a listing, filtered or
    not, carries an integer id under which get-one answers 200 with
    exactly that record. *)
Theorem listed_records_fetchable
    (species_filter : option string) (db : database) (bodies : list json) :
  reachable db →
  get_pets species_filter db = Response (JArr bodies) 200 →
  ∀ b, b ∈ bodies →
    ∃ i, body_field "id" b = Some (JInt i) ∧ get_pet i db = Response b 200.
Proof.
  intros Hwf%reachable_wf Hl b Hb.
  assert (∃ p, p ∈ rows db ∧ b = pet_json p) as (p & Hp & ->).
  { unfold get_pets in Hl. injection Hl as <-.
    apply list_elem_of_fmap in Hb as (p & -> & Hp). exists p. split; [|done].
    unfold query_all, query_filter_by_species in Hp.
    destruct species_filter as [s|]; [|done].
    destruct (negb _); [|done].
    by apply list_elem_of_filter in Hp as [_ Hp]. }
  pose proof (wf_rows _ Hwf) as Hr. rewrite Forall_forall in Hr.
  destruct (Hr p Hp) as [(i & Hi & _) _]. exists i.
  split; [by apply pet_json_id|].
  by apply get_pet_found, wf_session_get_row.
Qed.

Lemma listed_records_fetchable_witness :
  ∃ i, body_field "id" (pet_json whiskers) = Some (JInt i)
       ∧ get_pet i two_pets_db = Response (pet_json whiskers) 200.
Proof.
  apply (listed_records_fetchable (Some "Cat") two_pets_db [pet_json whiskers]).
  - exact two_pets_db_reachable.
  - reflexivity.
  - apply list_elem_of_singleton. reflexivity.
Defined.

(** ** Bodies that are not JSON objects *)

Lemma append_cons b s t :
  String.append (String b s) t = String b (String.append s t).
Proof. reflexivity. Qed.

Lemma prefix_spec sub : ∀ s,
  Stdlib.Strings.String.prefix sub s = true ↔ ∃ post, s = String.append sub post.
Proof.
  induction sub as [|a sub IH]; intros s.
  - split; [intros _; by exists s | by destruct s].
  - destruct s as [|b s]; cbn [Stdlib.Strings.String.prefix].
    + split; [done | by intros [post ?]].
    + destruct (Ascii.ascii_dec a b) as [->|Hab].
      * rewrite IH. split; intros [post Hpost]; exists post;
          rewrite append_cons in *; congruence.
      * split; [done | intros [post Hpost]].
        rewrite append_cons in Hpost. congruence.
Qed.

Lemma str_contains_spec sub : ∀ s,
  str_contains sub s = true ↔ is_substring sub s.
Proof.
  unfold is_substring. induction s as [|b s IH].
  - cbn [str_contains]. rewrite orb_false_r, prefix_spec. split.
    + intros [post ->]. by exists EmptyString, post.
    + intros ([|c pre] & post & Hs); [by exists post|].
      by rewrite append_cons in Hs.
  - cbn [str_contains]. rewrite orb_true_iff, IH, prefix_spec. split.
    + intros [[post ->]|(pre & post & ->)].
      * by exists EmptyString, post.
      * by exists (String b pre), post.
    + intros ([|c pre] & post & Hs).
      * left. by exists post.
      * right. exists pre, post. rewrite append_cons in Hs. congruence.
Qed.

Lemma existsb_json_eq_str key (l : list json) :
  existsb (json_eq_str key) l = true ↔ JStr key ∈ l.
Proof.
  rewrite existsb_exists. split.
  - intros (v & Hin & ->%json_eq_str_spec). by apply list_elem_of_In.
  - intros Hin. exists (JStr key). split; [by apply list_elem_of_In|].
    by apply json_eq_str_spec.
Qed.

(** On a body that is no object, a conditional assignment never
    assigns: it raises, or leaves the object alone. *)
Lemma assign_if_present_non_obj key data set pet :
  is_obj data = false →
  assign_if_present key data set pet =
  match py_in key data with
  | inl e => inl e
  | inr true => inl TypeError
  | inr false => inr pet
  end.
Proof.
  intros Hobj. unfold assign_if_present.
  destruct data; try done; simpl; by case_match.
Qed.

Lemma update_fields_non_obj data pet :
  is_obj data = false →
  update_fields data pet
  = match py_in "name" data, py_in "species" data with
    | inr false, inr false => inr pet
    | _, _ => inl TypeError
    end.
Proof.
  intros Hobj. unfold update_fields.
  rewrite assign_if_present_non_obj by done.
  destruct data; try done; simpl;
    (case_match; simpl; [done|]);
    rewrite assign_if_present_non_obj by done; simpl; by case_match.
Qed.

Lemma update_fields_raise data pet e :
  update_fields data pet = inl e ↔ e = TypeError ∧ breaks_update data.
Proof.
  destruct (is_obj data) eqn:Hobj.
  - destruct data; try done. rewrite update_fields_obj. simpl.
    split; [done | by intros [_ ?]].
  - rewrite update_fields_non_obj by done.
    destruct data as [| | | |s|l|]; try done; simpl;
      try (split; [by intros [= <-] | by intros [-> _]]).
    + rewrite <- !str_contains_spec.
      destruct (str_contains "name" s), (str_contains "species" s);
        split; try (intros [= <-]); try (intros [-> [?|?]]); try done;
        split; auto.
    + rewrite <- !existsb_json_eq_str.
      destruct (existsb (json_eq_str "name") l),
               (existsb (json_eq_str "species") l);
        split; try (intros [= <-]); try (intros [-> [?|?]]); try done;
        split; auto.
Qed.

(** The exceptions of a create: the [AttributeError] of [data.get] on
    a truthy body that is no object, or an error of the storage
    layer. *)
Lemma create_pet_raise data db e :
  (create_pet data db).1 = Raise e →
  e = AttributeError ∧ truthy data = true ∧ is_obj data = false
  ∨ storage_error e = true ∧ is_obj data = true.
Proof.
  unfold create_pet, create_invalid.
  destruct (truthy data) eqn:Ht; simpl; [|done].
  destruct data as [| | | | | |o]; simpl;
    try (intros [= <-]; by left).
  destruct (o !! "name") as [n|]; simpl; [|done].
  destruct (truthy n); simpl; [|done].
  destruct (o !! "species") as [s|]; simpl; [|done].
  destruct (truthy s); simpl; [|done].
  unfold session_add_commit.
  destruct (bind_columns _) as [e'|p] eqn:Hb; simpl.
  - intros [= <-]. right. split; [|done]. by eapply bind_columns_error.
  - destruct (in_int64 (next_id db)); simpl; [done|].
    intros [= <-]. by right.
Qed.

(** X4: the create handler ends in an [AttributeError] exactly when
    the body is truthy but no JSON object (a non-empty list or string,
    a non-zero number, [true]); it never ends in a [TypeError] or a
    [KeyError], so any other uncaught exception comes from the storage
    layer; and whenever it ends in an exception, nothing is stored. *)
Theorem create_pet_raises_iff (data : json) (db : database) :
  ((create_pet data db).1 = Raise AttributeError
   ↔ truthy data = true ∧ is_obj data = false)
  ∧ (create_pet data db).1 ≠ Raise TypeError
  ∧ (create_pet data db).1 ≠ Raise KeyError
  ∧ (∀ e, (create_pet data db).1 = Raise e → (create_pet data db).2 = db).
Proof.
  split_and!.
  - split.
    + intros [(_ & ? & ?)|[? _]]%create_pet_raise; done.
    + intros [Ht Hobj]. unfold create_pet, create_invalid. rewrite Ht.
      by destruct data.
  - intros [(? & _)|[? _]]%create_pet_raise; done.
  - intros [(? & _)|[? _]]%create_pet_raise; done.
  - intros e He.
    destruct (create_pet_cases data db)
      as [[_ Hdb]|(o & n & s & pet & _ & _ & _ & _ & _ & _ & _ & _ & _ & Heq)];
      [done|]. by rewrite Heq in He.
Qed.

(** X5: for an existing id, the update handler ends in a [TypeError]
    exactly on these bodies: [null], a boolean or a number; a list that
    has the string "name" or "species" among its elements; a string in
    which "name" or "species" occurs.  It never ends in an
    [AttributeError] or a [KeyError], and whenever it ends in an
    exception the table is left as it was. *)
Theorem update_pet_raises_iff
    (pet_id : Z) (pet : Pet) (data : json) (db : database) :
  session_get pet_id db = Some pet →
  ((update_pet pet_id data db).1 = Raise TypeError ↔ breaks_update data)
  ∧ (update_pet pet_id data db).1 ≠ Raise AttributeError
  ∧ (update_pet pet_id data db).1 ≠ Raise KeyError
  ∧ (∀ e, (update_pet pet_id data db).1 = Raise e
          → (update_pet pet_id data db).2 = db).
Proof.
  intros Hget. rewrite (update_pet_found _ _ _ _ Hget).
  destruct (update_fields data pet) as [e'|pet2] eqn:Hupd; simpl.
  - apply update_fields_raise in Hupd as [-> Hbr]. by split_and!.
  - assert (¬ breaks_update data) as Hnb.
    { intros Hbr.
      assert (update_fields data pet = inl TypeError) as Hc
        by by apply update_fields_raise.
      congruence. }
    destruct (bind_columns pet2) as [e'|p] eqn:Hb; simpl.
    + apply bind_columns_error in Hb.
      split_and!; [split; [|done] | | |done]; by intros [= ->].
    + by split_and!.
Qed.

Lemma update_pet_raises_iff_witness :
  (update_pet 1 (JStr "my species") fido_db).1 = Raise TypeError
  ↔ breaks_update (JStr "my species").
Proof.
  apply (update_pet_raises_iff 1 fido (JStr "my species") fido_db).
  reflexivity.
Defined.

(** X6: an update of an existing record whose body is no JSON object
    never changes the table: it either raises the [TypeError] or
    answers 200 with the record as it is. *)
Theorem update_pet_non_object_body
    (pet_id : Z) (pet : Pet) (data : json) (db : database) :
  reachable db →
  session_get pet_id db = Some pet →
  is_obj data = false →
  (update_pet pet_id data db).2 = db
  ∧ ((update_pet pet_id data db).1 = Raise TypeError
     ∨ (update_pet pet_id data db).1 = Response (pet_json pet) 200).
Proof.
  intros Hwf%reachable_wf Hget Hobj.
  destruct (session_get_Some _ _ _ Hget) as [_ Hin].
  rewrite (update_pet_found _ _ _ _ Hget), update_fields_non_obj by done.
  destruct (py_in "name" data) as [?|[]], (py_in "species" data) as [?|[]];
    simpl; try (split; [done | by left]).
  rewrite (wf_row_columns db) by done. simpl.
  split; [by apply update_row_same with pet_id | by right].
Qed.

Lemma update_pet_non_object_body_witness :
  (update_pet 1 (JArr [JStr "Rex"]) fido_db).2 = fido_db
  ∧ ((update_pet 1 (JArr [JStr "Rex"]) fido_db).1 = Raise TypeError
     ∨ (update_pet 1 (JArr [JStr "Rex"]) fido_db).1
       = Response (pet_json fido) 200).
Proof.
  apply (update_pet_non_object_body 1 fido (JArr [JStr "Rex"]) fido_db
           fido_db_reachable); reflexivity.
Defined.

(** ** Outcomes *)

(** X7: on a request whose body, if it has one, is a JSON object, the
    handlers' own code never raises: the only uncaught exceptions are
    those of the storage layer (a key or integer value outside the
    64-bit range, a list or object value, no id left). *)
Theorem object_bodies_only_storage_errors
    (r : request) (db : database) (e : exn) :
  object_body r →
  (handle r db).1 = Raise e → storage_error e = true.
Proof.
  destruct r as [data|f|i|i data|i]; simpl; intros Hobj.
  - intros [(_ & _ & ?)|[? _]]%create_pet_raise; congruence.
  - done.
  - unfold get_pet, db_session_get.
    destruct (in_int64 i); simpl; [by case_match | by intros [= <-]].
  - destruct data as [| | | | | |o]; try done.
    unfold update_pet, db_session_get.
    destruct (in_int64 i); simpl; [|by intros [= <-]].
    destruct (session_get i db) as [pet|]; [|done].
    rewrite update_fields_obj. simpl. unfold session_commit.
    destruct (bind_columns _) as [e'|p] eqn:Hb; simpl; [|done].
    intros [= <-]. by eapply bind_columns_error.
  - unfold delete_pet, db_session_get.
    destruct (in_int64 i); simpl; [by case_match | by intros [= <-]].
Qed.

Lemma object_bodies_only_storage_errors_witness :
  storage_error BindingError = true.
Proof.
  apply (object_bodies_only_storage_errors
           (ReqUpdate 1 (JObj {["name" := JArr [JStr "a"]]})) fido_db
           BindingError); reflexivity.
Defined.

(** X8: the only statuses the routes answer with are 201 and 400 for
    create, 200 for the listing, and 200 and 404 for get-one, update
    and delete. *)
Theorem response_statuses
    (r : request) (db : database) (body : json) (status : Z) :
  (handle r db).1 = Response body status → status ∈ allowed_statuses r.
Proof.
  destruct r as [data|f|i|i data|i]; simpl.
  - destruct (create_pet_cases data db)
      as [[[[e ->]| ->] _]|(o & n & s & pet & _ & _ & _ & _ & _ & _ & _ & _ & _ & ->)];
      [done|intros [= _ <-]; set_solver..].
  - intros [= _ <-]. set_solver.
  - unfold get_pet. destruct (db_session_get i db) as [e|[pet|]];
      [done|intros [= _ <-]; set_solver..].
  - destruct (update_pet_cases i data db)
      as [[[[e ->]| ->] _]|(pet & pet2 & p & _ & _ & _ & ->)];
      [done|intros [= _ <-]; set_solver..].
  - unfold delete_pet. destruct (db_session_get i db) as [e|[pet|]];
      [done|intros [= _ <-]; set_solver..].
Qed.

Lemma response_statuses_witness : 404 ∈ allowed_statuses (ReqDelete 999).
Proof.
  apply (response_statuses (ReqDelete 999) empty_db not_found_error 404).
  reflexivity.
Defined.

(** ** How the operations compose *)

Lemma update_fields_again data pet pet2 p :
  update_fields data pet = inr pet2 →
  bind_columns pet2 = inr p →
  (pet3 ← update_fields data p; bind_columns pet3) = inr p.
Proof.
  destruct (is_obj data) eqn:Hobj.
  - destruct data as [| | | | | |o]; try done.
    rewrite !update_fields_obj. intros [= <-] Hb. simpl.
    destruct (bind_columns_is_column _ _ Hb) as [Hcn Hcs].
    apply bind_columns_inr in Hb as (n & s & Hn & Hs & ->).
    apply bind_columns_inr. exists n, s. unfold patched in *. simpl in *.
    split_and!; [| |done].
    + destruct (o !! "name"); simpl in *; [done | by apply to_column_column].
    + destruct (o !! "species"); simpl in *; [done | by apply to_column_column].
  - rewrite !update_fields_non_obj by done.
    destruct (py_in "name" data) as [?|[]]; try done.
    destruct (py_in "species" data) as [?|[]]; try done.
    intros [= <-] Hb. simpl. by apply bind_columns_again with pet.
Qed.

(** X9: updating is idempotent: sending the same update request a
    second time gives the same outcome and leaves the table as the
    first one left it, whatever the id and the body. *)
Theorem update_pet_idempotent (pet_id : Z) (data : json) (db : database) :
  update_pet pet_id data (update_pet pet_id data db).2
  = ((update_pet pet_id data db).1, (update_pet pet_id data db).2).
Proof.
  destruct (update_pet_cases pet_id data db)
    as [[_ Hdb]|(pet & pet2 & p & Hget & Hupd & Hb & Heq)].
  - destruct (update_pet pet_id data db) as [out db1] eqn:Hu.
    simpl in *. by subst db1.
  - rewrite Heq. simpl.
    destruct (session_get_Some _ _ _ Hget) as [Hid _].
    assert (id p = Some pet_id) as Hidp.
    { rewrite (bind_columns_id _ _ Hb).
      apply update_fields_id in Hupd. congruence. }
    rewrite (update_pet_found pet_id p)
      by by apply session_get_update_row_eq with pet.
    rewrite (update_fields_again data pet pet2 p) by done.
    by rewrite update_row_twice.
Qed.

Lemma patched_union_columns o1 o2 pet p1 p2 :
  bind_columns (patched o1 pet) = inr p1 →
  bind_columns (patched o2 p1) = inr p2 →
  bind_columns (patched (o2 ∪ o1) pet) = inr p2.
Proof.
  intros Hb1 Hb2.
  destruct (bind_columns_is_column _ _ Hb1) as [Hcn Hcs].
  apply bind_columns_inr in Hb1 as (n1 & s1 & Hn1 & Hs1 & ->).
  apply bind_columns_inr in Hb2 as (n2 & s2 & Hn2 & Hs2 & ->).
  apply bind_columns_inr. exists n2, s2. unfold patched in *. simpl in *.
  rewrite !lookup_union. split_and!; [| |done].
  - destruct (o2 !! "name"), (o1 !! "name"); simpl in *; try done;
      rewrite to_column_column in Hn2 by done; congruence.
  - destruct (o2 !! "species"), (o1 !! "species"); simpl in *; try done;
      rewrite to_column_column in Hs2 by done; congruence.
Qed.

(** X10: when two updates of the same id with JSON object bodies, one
    after the other, both answer 200, a single update with the merged
    body, the later body winning on the keys both carry, gives the
    second answer and leaves the same table. *)
Theorem update_pet_merge
    (pet_id : Z) (o1 o2 : gmap string json) (db db1 db2 : database)
    (body1 body2 : json) :
  update_pet pet_id (JObj o1) db = (Response body1 200, db1) →
  update_pet pet_id (JObj o2) db1 = (Response body2 200, db2) →
  update_pet pet_id (JObj (o2 ∪ o1)) db = (Response body2 200, db2).
Proof.
  intros H1 H2.
  destruct (update_pet_cases pet_id (JObj o1) db)
    as [[[[e He]|He] _]|(pet & pet1 & p1 & Hget & Hupd1 & Hb1 & Heq1)].
  { by rewrite H1 in He. }
  { rewrite H1 in He. simpl in He. by injection He. }
  rewrite H1 in Heq1. injection Heq1 as -> ->.
  rewrite update_fields_obj in Hupd1. injection Hupd1 as <-.
  destruct (session_get_Some _ _ _ Hget) as [Hid _].
  pose proof (bind_columns_id _ _ Hb1) as Hid1. simpl in Hid1.
  assert (session_get pet_id (update_row p1 db) = Some p1) as Hget1.
  { apply session_get_update_row_eq with pet; [congruence | done]. }
  rewrite (update_pet_found _ _ _ _ Hget1), update_fields_obj in H2.
  simpl in H2.
  destruct (bind_columns (patched o2 p1)) as [e|p2] eqn:Hb2; [done|].
  injection H2 as <- <-.
  rewrite (update_pet_found _ _ _ _ Hget), update_fields_obj. simpl.
  rewrite (patched_union_columns o1 o2 pet p1 p2) by done.
  rewrite update_row_twice; [done|].
  pose proof (bind_columns_id _ _ Hb2) as Hid2. simpl in Hid2. congruence.
Qed.

Lemma update_pet_merge_witness :
  update_pet 1 (JObj ({["species" := JStr "Big Dog"]} ∪ {["name" := JStr "Rex"]}))
    fido_db
  = (Response
       (pet_json {| id := Some 1; name := JStr "Rex"; species := JStr "Big Dog" |})
       200,
     {| rows := [{| id := Some 1; name := JStr "Rex"; species := JStr "Big Dog" |}];
        next_id := 2 |}).
Proof.
  apply (update_pet_merge 1 {["name" := JStr "Rex"]}
           {["species" := JStr "Big Dog"]} fido_db
           {| rows := [{| id := Some 1; name := JStr "Rex"; species := JStr "Dog" |}];
              next_id := 2 |}
           _
           (pet_json {| id := Some 1; name := JStr "Rex"; species := JStr "Dog" |}));
    reflexivity.
Defined.

(** X11: deleting the same id twice in a row: the second request never
    finds a record and changes nothing, whether or not the first one
    found one.  It answers 404, or, for an id outside the 64-bit range,
    ends in the [OverflowError] of the look-up as the first one did. *)
Theorem delete_pet_twice (pet_id : Z) (db : database) :
  delete_pet pet_id (delete_pet pet_id db).2
  = (if in_int64 pet_id then Response not_found_error 404
     else Raise OverflowError,
     (delete_pet pet_id db).2).
Proof.
  destruct (delete_pet pet_id db) as [out db1] eqn:Hd. simpl.
  unfold delete_pet, db_session_get in Hd |- *.
  destruct (in_int64 pet_id) eqn:Hr; simpl in *.
  - destruct (session_get pet_id db) as [pet|] eqn:Hget; injection Hd as <- <-.
    + destruct (session_get_Some _ _ _ Hget) as [Hid _].
      by rewrite session_get_delete_eq.
    + by rewrite Hget.
  - by injection Hd as <- <-.
Qed.

Lemma filter_keep_all {A} (P : A → Prop) `{∀ x, Decision (P x)} (l : list A) :
  (∀ x, x ∈ l → P x) → filter P l = l.
Proof.
  induction l as [|a l IH]; intros Hall; [done|].
  rewrite filter_cons_True by (apply Hall; left).
  f_equal. apply IH. intros x Hx. apply Hall. by right.
Qed.

(** X12: creating a record and then deleting it under the id the
    create reported gives back the rows the table had before; only the
    id counter has moved on. *)
Theorem create_then_delete (data : json) (db db' : database) (body : json) :
  reachable db →
  create_pet data db = (Response body 201, db') →
  ∃ i, body_field "id" body = Some (JInt i)
       ∧ delete_pet i db'
         = (Response deleted_message 200,
            {| rows := rows db; next_id := next_id db + 1 |}).
Proof.
  intros Hwf%reachable_wf Hc.
  apply create_pet_201_inv in Hc as (pet & -> & -> & Hid & Hr & _).
  exists (next_id db). split; [by apply pet_json_id|].
  rewrite (delete_pet_found _ pet) by by apply session_get_app_new.
  unfold session_delete_commit. simpl. do 2 f_equal.
  rewrite filter_app, (filter_cons_False _ pet) by (intros H; by apply H).
  rewrite filter_nil, app_nil_r. apply filter_keep_all.
  intros q Hq Heq. pose proof (wf_rows _ Hwf) as Hrows.
  rewrite Forall_forall in Hrows. destruct (Hrows q Hq) as [(j & Hj & Hlt) _].
  assert (j = next_id db) by congruence. lia.
Qed.

Lemma create_then_delete_witness :
  ∃ i, body_field "id" (pet_json fido) = Some (JInt i)
       ∧ delete_pet i fido_db
         = (Response deleted_message 200, {| rows := []; next_id := 2 |}).
Proof.
  apply (create_then_delete (JObj fido_body) empty_db fido_db (pet_json fido)
           reachable_init).
  reflexivity.
Defined.

(** X13: in every reachable table, deleting an existing id takes
    exactly one row out, the one get-one returns, and keeps all others
    in their order. *)
Theorem delete_pet_removes_one (pet_id : Z) (pet : Pet) (db : database) :
  reachable db →
  session_get pet_id db = Some pet →
  ∃ before after : list Pet,
    rows db = (before ++ pet :: after)%list
    ∧ rows (delete_pet pet_id db).2 = (before ++ after)%list.
Proof.
  intros Hwf%reachable_wf Hget.
  destruct (session_get_Some _ _ _ Hget) as [Hid Hin].
  destruct (list_elem_of_split _ _ Hin) as (l1 & l2 & Hrows).
  exists l1, l2. split; [done|].
  rewrite (delete_pet_found _ _ _ Hget). simpl.
  pose proof (wf_nodup _ Hwf) as Hd. rewrite Hrows in Hd |- *.
  rewrite fmap_app, fmap_cons in Hd.
  apply NoDup_app in Hd as (_ & Hdisj & [Hnot _]%NoDup_cons).
  rewrite filter_app, (filter_cons_False _ pet) by (intros H; by apply H).
  rewrite !filter_keep_all; [done|..].
  - intros q Hq Heq. apply Hnot. rewrite <- Heq. by apply list_elem_of_fmap_2.
  - intros q Hq Heq. apply (Hdisj (id q)); [by apply list_elem_of_fmap_2|].
    rewrite Heq. left.
Qed.

Lemma delete_pet_removes_one_witness :
  ∃ before after : list Pet,
    rows two_pets_db = (before ++ fido :: after)%list
    ∧ rows (delete_pet 1 two_pets_db).2 = (before ++ after)%list.
Proof.
  apply (delete_pet_removes_one 1 fido two_pets_db).
  - exact two_pets_db_reachable.
  - reflexivity.
Defined.

(** ** What a body is read for *)

(** X14: of a JSON object body, create and update read the keys [name]
    and [species] and nothing else: two bodies that agree on these two
    keys get the same answer and leave the same table. *)
Theorem only_name_and_species_matter (o o' : gmap string json) (db : database) :
  o !! "name" = o' !! "name" →
  o !! "species" = o' !! "species" →
  create_pet (JObj o) db = create_pet (JObj o') db
  ∧ ∀ pet_id, update_pet pet_id (JObj o) db = update_pet pet_id (JObj o') db.
Proof.
  intros Hn Hs. split.
  - unfold create_pet. rewrite !create_invalid_obj. cbn [py_getitem].
    by rewrite Hn, Hs.
  - intros pet_id. unfold update_pet.
    destruct (db_session_get pet_id db) as [e|[pet|]]; [done| |done].
    rewrite !update_fields_obj. unfold patched. by rewrite Hn, Hs.
Qed.

Lemma only_name_and_species_matter_witness :
  create_pet (JObj (<["age" := JInt 3]> fido_body)) empty_db
  = create_pet (JObj fido_body) empty_db.
Proof.
  apply (only_name_and_species_matter (<["age" := JInt 3]> fido_body)
           fido_body empty_db); reflexivity.
Defined.

(** ** Listings *)

(** X15: a successful create adds its response body at the end of
    every listing whose filter the new record passes (no filter, an
    empty one, or a non-empty one equal to its species), and leaves
    every other listing as it was. *)
Theorem create_then_list
    (species_filter : option string) (data : json) (db db' : database)
    (body : json) (bodies : list json) :
  create_pet data db = (Response body 201, db') →
  get_pets species_filter db = Response (JArr bodies) 200 →
  get_pets species_filter db'
  = Response
      (JArr (bodies ++ if passes_filter species_filter body then [body] else []))
      200.
Proof.
  intros Hc Hl.
  apply create_pet_201_inv in Hc as (pet & -> & -> & _).
  unfold get_pets, query_all, query_filter_by_species in Hl |- *.
  unfold passes_filter. rewrite pet_json_species.
  destruct species_filter as [[|a s']|]; simpl in Hl |- *;
    injection Hl as <-.
  - by rewrite map_app.
  - rewrite filter_app, map_app. do 3 f_equal.
    rewrite filter_cons, filter_nil. simpl.
    destruct (json_eq_str (String a s') (species pet)) eqn:He;
      by case_decide.
  - by rewrite map_app.
Qed.

Lemma create_then_list_witness :
  get_pets (Some "Dog") fido_db = Response (JArr [pet_json fido]) 200
  ∧ get_pets (Some "Cat") fido_db = Response (JArr []) 200.
Proof.
  split.
  - apply (create_then_list (Some "Dog") (JObj fido_body) empty_db fido_db
             (pet_json fido) []); reflexivity.
  - apply (create_then_list (Some "Cat") (JObj fido_body) empty_db fido_db
             (pet_json fido) []); reflexivity.
Defined.

(** X16: filtering only narrows a listing: the records of a filtered
    listing are records of the unfiltered one, in the same order. *)
Theorem filtered_listing_sublist
    (species_filter : option string) (db : database)
    (filtered all : list json) :
  get_pets species_filter db = Response (JArr filtered) 200 →
  get_pets None db = Response (JArr all) 200 →
  filtered `sublist_of` all.
Proof.
  unfold get_pets, query_all, query_filter_by_species.
  intros [= <-] [= <-].
  destruct species_filter as [s|]; [|reflexivity].
  simpl. destruct (negb _); [|reflexivity].
  apply fmap_sublist, sublist_filter.
Qed.

Lemma filtered_listing_sublist_witness :
  [pet_json whiskers] `sublist_of` [pet_json fido; pet_json whiskers].
Proof.
  apply (filtered_listing_sublist (Some "Cat") two_pets_db); reflexivity.
Defined.

(** ** Requests that fail *)

(** X17: a request that does not answer 200 or 201, be it a 400, a 404
    or an uncaught exception, leaves the table exactly as it was. *)
Theorem failures_change_nothing (r : request) (db : database) :
  (∀ body, (handle r db).1 ≠ Response body 200) →
  (∀ body, (handle r db).1 ≠ Response body 201) →
  (handle r db).2 = db.
Proof.
  intros H200 H201. destruct r as [data|f|i|i data|i]; simpl in *; try done.
  - destruct (create_pet_cases data db)
      as [[_ Hdb]|(o & n & s & pet & _ & _ & _ & _ & _ & _ & _ & _ & _ & Heq)];
      [done|].
    destruct (H201 (pet_json pet)). by rewrite Heq.
  - destruct (update_pet_cases i data db)
      as [[_ Hdb]|(pet & pet2 & p & _ & _ & _ & Heq)]; [done|].
    destruct (H200 (pet_json p)). by rewrite Heq.
  - unfold delete_pet in *.
    destruct (db_session_get i db) as [e|[pet|]]; [done| |done].
    by destruct (H200 deleted_message).
Qed.

Lemma failures_change_nothing_witness :
  (handle (ReqCreate (JObj {["name" := JStr "Fido"]})) fido_db).2 = fido_db.
Proof.
  apply (failures_change_nothing
           (ReqCreate (JObj {["name" := JStr "Fido"]})) fido_db);
    intros body; vm_compute; intros [=].
Defined.

(** ** Null fields over a run *)

Lemma column_not_null v c :
  to_column v = inr c → to_column v ≠ inr JNull → c ≠ JNull.
Proof. congruence. Qed.

(** What the requests keep: no request none of whose [name] and
    [species] values is stored as NULL can put a null field into the
    table. *)
Lemma non_null_preserved r db :
  wf db → supplies_no_null r →
  Forall non_null (rows db) → Forall non_null (rows (handle r db).2).
Proof.
  intros Hwf Hr Hdb. destruct r as [data|f|i|i data|i]; simpl; try done.
  - destruct (create_pet_cases data db)
      as [[_ ->]|(o & n & s & pet & -> & Hn & _ & Hs & _ & Hcn & Hcs & _ & _ & ->)];
      [done|]. simpl. apply Forall_app. split; [done|].
    destruct Hr as [Hrn Hrs]. repeat constructor.
    + apply (column_not_null n); [done|]. by apply Hrn.
    + apply (column_not_null s); [done|]. by apply Hrs.
  - destruct (update_pet_cases i data db)
      as [[_ ->]|(pet & pet2 & p & Hget & Hupd & Hb & ->)]; [done|].
    destruct Hr as [Hrn Hrs].
    apply session_get_Some in Hget as [_ Hin].
    rewrite Forall_forall in Hdb. pose proof (Hdb pet Hin) as [Hpn Hps].
    pose proof (wf_rows _ Hwf) as Hrows. rewrite Forall_forall in Hrows.
    destruct (Hrows pet Hin) as [_ [Hn0%to_column_column Hs0%to_column_column]].
    apply bind_columns_inr in Hb as (n & s & Hn & Hs & ->).
    assert (non_null {| id := id pet2; name := n; species := s |}) as Hp2.
    { destruct (is_obj data) eqn:Hobj.
      - destruct data as [| | | | | |o]; try done.
        rewrite update_fields_obj in Hupd. injection Hupd as <-.
        unfold patched in *. simpl in *. split; simpl.
        + destruct (o !! "name") as [v|] eqn:Hv; simpl in *.
          * apply (column_not_null v); [done|]. by apply Hrn.
          * congruence.
        + destruct (o !! "species") as [v|] eqn:Hv; simpl in *.
          * apply (column_not_null v); [done|]. by apply Hrs.
          * congruence.
      - rewrite update_fields_non_obj in Hupd by done.
        destruct (py_in "name" data) as [?|[]]; try done.
        destruct (py_in "species" data) as [?|[]]; try done.
        injection Hupd as <-. split; simpl; congruence. }
    apply Forall_fmap, Forall_forall. intros q Hq. simpl.
    case_bool_decide; [done | by apply Hdb].
  - unfold delete_pet.
    destruct (db_session_get i db) as [e|[pet|]]; [done| |done]. simpl.
    rewrite Forall_forall in Hdb |- *.
    intros p Hp. apply list_elem_of_filter in Hp as [_ Hp]. by apply Hdb.
Qed.

Lemma non_null_serve rs : ∀ db,
  wf db →
  Forall supplies_no_null rs →
  Forall non_null (rows db) → Forall non_null (rows (serve rs db).2).
Proof.
  induction rs as [|r rs IH]; intros db Hwf Hrs Hdb; [done|].
  apply Forall_cons in Hrs as [Hr Hrs]. rewrite serve_cons.
  pose proof (non_null_preserved r db Hwf Hr Hdb) as Hstep.
  pose proof (wf_handle r db Hwf) as Hwf1.
  destruct (handle r db) as [out db1].
  specialize (IH db1 Hwf1 Hrs Hstep).
  by destruct (serve rs db1) as [outs db2].
Qed.

(** X18: as long as no create or update body carries a [name] or
    [species] that is stored as NULL (that is, [null] or NaN), no
    sequence of requests served from the empty table leaves a row with
    a null [name] or [species]. *)
Theorem non_null_unless_null_supplied (rs : list request) :
  Forall supplies_no_null rs →
  Forall non_null (rows (serve rs empty_db).2).
Proof.
  intros Hrs. apply non_null_serve; [apply wf_empty | done | constructor].
Qed.

Lemma non_null_unless_null_supplied_witness :
  Forall non_null
    (rows (serve [ReqCreate (JObj fido_body);
                  ReqUpdate 1 (JObj {["name" := JStr "Rex"]});
                  ReqDelete 7] empty_db).2).
Proof.
  apply (non_null_unless_null_supplied
           [ReqCreate (JObj fido_body);
            ReqUpdate 1 (JObj {["name" := JStr "Rex"]});
            ReqDelete 7]).
  repeat constructor; intros v Hv; vm_compute in Hv;
    try discriminate Hv; injection Hv as <-; vm_compute; intros [=].
Defined.
